(** * The WebAssembly representation of tools/optimizer/wasm.h

    A shallow embedding of the arena allocator, the [Var] identifier, the
    literal and expression types and the [Module] container of
    [tools/optimizer/wasm.h], with the properties its description states.

    Platform model: [size_t] and pointers are 64 bits wide, [int] is a
    32-bit signed and [unsigned] a 32-bit unsigned integer, and bytes are
    in little-endian order; conversions between the integer types are
    written out.  [assert] is modelled as enabled: a failed assertion
    aborts, which the embedding renders as [None]. *)

From Stdlib Require Import ZArith List Lia Bool.
From stdpp Require Import base option list gmap.

Local Open Scope Z_scope.

(** ** Machine integers *)

Definition SIZE_MODULUS : Z := 2 ^ 64.
Definition PTRDIFF_MAX : Z := 2 ^ 63 - 1.

(** Conversion to [size_t]. *)
Definition to_size_t (z : Z) : Z := z mod SIZE_MODULUS.

(** Conversion to [int]. *)
Definition to_int (z : Z) : Z := (z + 2 ^ 31) mod 2 ^ 32 - 2 ^ 31.

(** The result of [sizeof(T)] for a complete object type [T]: at least one
    byte, at most [PTRDIFF_MAX]. *)
Definition sizeof_ok (sizeofT : Z) : Prop := 1 <= sizeofT <= PTRDIFF_MAX.

(** ** Arena *)

(** A memory block obtained from [new char[CHUNK_SIZE]].  Blocks are
    numbered in the order the arena creates them: every call of [new]
    yields a block distinct from all the blocks still alive, and the arena
    frees none before its destructor runs. *)
Definition block : Type := nat.

(** A pointer into a block: the block and the byte offset in it. *)
Definition pointer : Type := (block * Z)%type.

Record Arena : Type := mkArena {
  chunks : list block;
  index : Z  (* in last chunk *)
}.

(** [Arena] has no constructor: [chunks] starts empty and [index] holds
    whatever the storage held. *)
Definition Arena_new (indeterminate : Z) : Arena :=
  {| chunks := []; index := indeterminate |}.

Definition CHUNK_SIZE : Z := 10000.

(** [(sizeof(T) + 7) & (-8)] in [size_t] arithmetic. *)
Definition currSize_of (sizeofT : Z) : Z :=
  Z.land (to_size_t (sizeofT + 7)) (to_size_t (-8)).

(** [chunks.push_back(new char[CHUNK_SIZE]); index = 0;] *)
Definition Arena_new_chunk (a : Arena) : Arena :=
  {| chunks := chunks a ++ [length (chunks a)]; index := 0 |}.

(** [Arena::alloc<T>()], given [sizeof(T)]. *)
Definition Arena_alloc (sizeofT : Z) (a : Arena) : option (pointer * Arena) :=
  let currSize := currSize_of sizeofT in
  if negb (currSize <? CHUNK_SIZE) then None else
  let a1 :=
    if (length (chunks a) =? 0)%nat
       || (CHUNK_SIZE <=? to_size_t (to_size_t (index a) + currSize))
    then Arena_new_chunk a
    else a in
  let ret : pointer := (List.last (chunks a1) 0%nat, index a1) in
  Some (ret, {| chunks := chunks a1;
                index := to_int (to_size_t (to_size_t (index a1) + currSize)) |}).

(** A run of allocations, with the pointer each one returned. *)
Fixpoint Arena_allocs (sizes : list Z) (a : Arena) : option (list pointer * Arena) :=
  match sizes with
  | [] => Some ([], a)
  | s :: rest =>
      match Arena_alloc s a with
      | None => None
      | Some (p, a1) =>
          match Arena_allocs rest a1 with
          | None => None
          | Some (ps, a2) => Some (p :: ps, a2)
          end
      end
  end.

(** The storage an allocation hands out: the bytes
    [offset, offset + size) of one block. *)
Record region : Type := mkRegion {
  r_block : block;
  r_offset : Z;
  r_size : Z
}.

Definition region_of (p : pointer) (size : Z) : region :=
  {| r_block := fst p; r_offset := snd p; r_size := size |}.

Definition regions_of (ps : list pointer) (sizes : list Z) : list region :=
  zip_with region_of ps (map currSize_of sizes).

(** Two regions share no byte. *)
Definition disjoint_regions (r1 r2 : region) : Prop :=
  r_block r1 <> r_block r2
  \/ r_offset r1 + r_size r1 <= r_offset r2
  \/ r_offset r2 + r_size r2 <= r_offset r1.

(** A region lies inside one chunk. *)
Definition within_chunk (r : region) : Prop :=
  0 <= r_offset r /\ r_offset r + r_size r <= CHUNK_SIZE.

(** The states the arena goes through: a chunk list numbered in order and,
    once a chunk exists, a cursor inside it on an 8-byte boundary. *)
Definition Arena_wf (a : Arena) : Prop :=
  chunks a = seq 0 (length (chunks a))
  /\ (chunks a = [] \/ (0 <= index a < CHUNK_SIZE /\ index a mod 8 = 0)).

(** The arenas a program can hold: a fresh one, and whatever successful
    allocations make of it. *)
Inductive Arena_reachable : Arena -> Prop :=
| reach_new indeterminate : Arena_reachable (Arena_new indeterminate)
| reach_alloc a sizeofT p a' :
    Arena_reachable a -> sizeof_ok sizeofT ->
    Arena_alloc sizeofT a = Some (p, a') -> Arena_reachable a'.

Definition Zsum (l : list Z) : Z := fold_right Z.add 0 l.

(** A request the assertion of [alloc] lets through. *)
Definition request_ok (sizeofT : Z) : Prop :=
  sizeof_ok sizeofT /\ currSize_of sizeofT < CHUNK_SIZE.

(** Bytes behind the cursor, counting every closed chunk as full; an arena
    without a chunk counts as one full chunk, since its first allocation
    opens a chunk whatever the cursor holds. *)
Definition consumed (a : Arena) : Z :=
  match chunks a with
  | [] => CHUNK_SIZE
  | _ => Z.of_nat (length (chunks a)) * CHUNK_SIZE + index a
  end.

(** A pointer at or past the cursor of [a]. *)
Definition past_cursor (a : Arena) (p : pointer) : Prop :=
  (length (chunks a) <= fst p)%nat
  \/ (S (fst p) = length (chunks a) /\ index a <= snd p).


(** ** Basics: Name and Var *)

(** [typedef const char *Name]: a name is the address of its characters;
    [(size_t)str] is that address. *)
Definition Name : Type := Z.

Definition MAX_NUM : Z := 1000000.
(* less than this, a num, higher, a string; 0 = null *)

Definition UNSIGNED_MODULUS : Z := 2 ^ 32.

(** [union { unsigned num; Name str; }]: 8 bytes, of which [num] is the
    low 4 and [str] all 8.  A constructor writes one member and leaves the
    other bytes as they were. *)
Inductive Var_member : Type := member_num | member_str.

(** A [Var] as its constructor left it: the member written and the value
    stored in it. *)
Record Var : Type := mkVar { Var_written : Var_member; Var_rep : Z }.

(** The 8 bytes of a [Var] as a word, where [unwritten] is what the 4
    bytes beyond [num] hold when the constructor wrote [num] only. *)
Definition Var_word (unwritten : Z) (v : Var) : Z :=
  match Var_written v with
  | member_num => unwritten * UNSIGNED_MODULUS + Var_rep v
  | member_str => Var_rep v
  end.

(** Reading the member [num]: the low 4 bytes of the word, whatever the
    other 4 hold. *)
Definition Var_num (v : Var) : Z := Var_rep v mod UNSIGNED_MODULUS.

(** Reading the member [str]: the 8 bytes. *)
Definition Var_str (unwritten : Z) (v : Var) : Name := Var_word unwritten v.

(** [Var() : num(0) {}] *)
Definition Var_default : Var := mkVar member_num 0.

(** [Var(unsigned num) : num(num) { assert(num > 0 && num < MAX_NUM); }] *)
Definition Var_of_num (num : Z) : option Var :=
  if (0 <? num) && (num <? MAX_NUM) then Some (mkVar member_num num) else None.

(** [Var(Name str) : str(str) { assert(((size_t)str) > MAX_NUM); }] *)
Definition Var_of_name (str : Name) : option Var :=
  if MAX_NUM <? str then Some (mkVar member_str str) else None.

(** The reading of a value that the comment on [MAX_NUM] gives: 0 is
    null, a value below [MAX_NUM] a numeric id, a value above it a
    string. *)
Definition word_is_null (w : Z) : bool := w =? 0.
Definition word_is_num (w : Z) : bool := (0 <? w) && (w <? MAX_NUM).
Definition word_is_str (w : Z) : bool := MAX_NUM <? w.

(** The tests made through one member: null and numeric through [num],
    string through [str]. *)
Definition Var_is_null (v : Var) : bool := word_is_null (Var_num v).
Definition Var_is_num (v : Var) : bool := word_is_num (Var_num v).


(** Modelled from the spec: [operator==] on [Var], which wasm.h does not
    define.  An identifier is "a single word that is either a dense
    1-based numeric index or a symbolic name, disambiguated by magnitude",
    and "two identifiers are equal iff both are numeric with equal value,
    or both are named with equal underlying name -- never across the two
    modes."  The operands are the words of the two objects, each with the
    bytes its constructor left unwritten. *)
Definition Var_eqb (unwritten_a : Z) (a : Var) (unwritten_b : Z) (b : Var) : bool :=
  let wa := Var_word unwritten_a a in
  let wb := Var_word unwritten_b b in
  (word_is_num wa && word_is_num wb && (wa =? wb))
  || (word_is_str wa && word_is_str wb && (wa =? wb)).

#[global] Instance Var_member_eq_dec : EqDecision Var_member.
Proof. solve_decision. Defined.

#[global] Instance Var_eq_dec : EqDecision Var.
Proof. solve_decision. Defined.

#[global] Instance Var_countable : Countable Var :=
  inj_countable'
    (fun v => (match Var_written v with member_num => true | member_str => false end,
               Var_rep v))
    (fun p => mkVar (if fst p then member_num else member_str) (snd p))
    (fun v => match v with
              | mkVar member_num _ => eq_refl
              | mkVar member_str _ => eq_refl
              end).

(** ** Types *)

Inductive BasicType : Type := none | i32 | i64 | f32 | f64.

Module Literal.
(** [struct Literal]: its one data member is [type]. *)
Record t : Type := mk { type : BasicType }.

(** [union value { int32_t i32; int64_t i64; float f32; double f64; };]
  declares a type nested in [Literal]; the struct has no member of
  it.  The floats are given by their bit patterns. *)
Inductive value : Type :=
  | i32 (x : Z)
  | i64 (x : Z)
  | f32 (bits : Z)
  | f64 (bits : Z).
End Literal.

(** ** Operators *)

Module UnaryOp.
Inductive t : Type :=
  | Clz | Ctz | Popcnt (* int *)
  | Neg | Abs | Ceil | Floor | Trunc | Nearest | Sqrt (* float *).
End UnaryOp.

Module BinaryOp.
Inductive t : Type :=
  | Add | Sub | Mul (* int or float *)
  | DivS | DivU | RemS | RemU | And | Or | Xor | Shl | ShrU | ShrS (* int *)
  | Div | CopySign | Min | Max (* float *).
End BinaryOp.

Module RelationalOp.
Inductive t : Type :=
  | Eq | Ne (* int or float *)
  | LtS | LtU | LeS | LeU | GtS | GtU | GeS | GeU (* int *)
  | Lt | Le | Gt | Ge (* float *).
End RelationalOp.

Module ConvertOp.
Inductive t : Type :=
  | ExtendSInt32 | ExtendUInt32 | WrapInt64 | TruncSFloat32 | TruncUFloat32
  | TruncSFloat64 | TruncUFloat64 | ReinterpretFloat (* int *)
  | ConvertSInt32 | ConvertUInt32 | ConvertSInt64 | ConvertUInt64
  | PromoteFloat32 | DemoteFloat64 | ReinterpretInt (* float *).
End ConvertOp.

Module HostOp.
Inductive t : Type := PageSize | MemorySize | GrowMemory | HasFeature.
End HostOp.


(** What the payload of a literal would weigh, were it stored. *)
Definition payload_weight (p : Literal.value) : Z :=
  match p with
  | Literal.i32 x | Literal.i64 x | Literal.f32 x | Literal.f64 x => Z.abs x
  end.

(** ** Expressions *)

(** Each class of the hierarchy is a record of its fields over the type
    [E] of expressions; an [Expression *] field is [option E] (the pointer
    may be null), a [std::vector] a list, [unsigned] and [int] are [Z].
    Assigning to a member is a record update, written [set_<member>]. *)

Module Block.
Record t (E : Type) : Type := mk { var : Var; list : Datatypes.list E }.
Arguments mk {E}.
Arguments var {E}.
Arguments list {E}.
End Block.

Module If.
Record t (E : Type) : Type := mk { condition : option E; ifTrue : option E; ifFalse : option E }.
Arguments mk {E}.
Arguments condition {E}.
Arguments ifTrue {E}.
Arguments ifFalse {E}.
End If.

Module Loop.
(* the member [in] is spelled [in_] *)
Record t (E : Type) : Type := mk { out : Var; in_ : Var; body : option E }.
Arguments mk {E}.
Arguments out {E}.
Arguments in_ {E}.
Arguments body {E}.
End Loop.

Module Label.
Record t : Type := mk { var : Var }.
End Label.

Module Break.
Record t (E : Type) : Type := mk { var : Var; condition : option E }.
Arguments mk {E}.
Arguments var {E}.
Arguments condition {E}.
End Break.

Module Switch.
Module Case.
Record t (E : Type) : Type := mk {
  value : Literal.t;
  body : option E;
  fallthru : bool
}.
Arguments mk {E}.
Arguments value {E}.
Arguments body {E}.
Arguments fallthru {E}.
End Case.

Record t (E : Type) : Type := mk {
  var : Var;
  value : option E;
  cases : list (Case.t E);
  default_ : option E
}.
Arguments mk {E}.
Arguments var {E}.
Arguments value {E}.
Arguments cases {E}.
Arguments default_ {E}.

(** [s.cases.push_back(c)] *)
Definition push_case {E} (c : Case.t E) (s : t E) : t E :=
  mk (var s) (value s) (cases s ++ [c]) (default_ s).
(** [s.default_ = d] *)
Definition set_default_ {E} (d : option E) (s : t E) : t E :=
  mk (var s) (value s) (cases s) d.
(** [s.var = v] *)
Definition set_var {E} (v : Var) (s : t E) : t E :=
  mk v (value s) (cases s) (default_ s).
(** [s.value = e] *)
Definition set_value {E} (e : option E) (s : t E) : t E :=
  mk (var s) e (cases s) (default_ s).
End Switch.

Module Call.
Record t (E : Type) : Type := mk { target : Var; operands : list E }.
Arguments mk {E}.
Arguments target {E}.
Arguments operands {E}.
End Call.

Module CallIndirect.
Record t (E : Type) : Type := mk { type : Var; target : option E; operands : list E }.
Arguments mk {E}.
Arguments type {E}.
Arguments target {E}.
Arguments operands {E}.
End CallIndirect.

Module GetLocal.
Record t : Type := mk { id : Var }.
End GetLocal.

Module SetLocal.
Record t (E : Type) : Type := mk { id : Var; value : option E }.
Arguments mk {E}.
Arguments id {E}.
Arguments value {E}.
End SetLocal.

Module Load.
Record t (E : Type) : Type := mk {
  bytes : Z;
  signed_ : bool;
  offset : Z;
  align : Z;
  ptr : option E
}.
Arguments mk {E}.
Arguments bytes {E}.
Arguments signed_ {E}.
Arguments offset {E}.
Arguments align {E}.
Arguments ptr {E}.

(** [n.bytes = x] and the like *)
Definition set_bytes {E} (x : Z) (n : t E) : t E :=
  mk x (signed_ n) (offset n) (align n) (ptr n).
Definition set_signed_ {E} (x : bool) (n : t E) : t E :=
  mk (bytes n) x (offset n) (align n) (ptr n).
Definition set_offset {E} (x : Z) (n : t E) : t E :=
  mk (bytes n) (signed_ n) x (align n) (ptr n).
Definition set_align {E} (x : Z) (n : t E) : t E :=
  mk (bytes n) (signed_ n) (offset n) x (ptr n).
Definition set_ptr {E} (x : option E) (n : t E) : t E :=
  mk (bytes n) (signed_ n) (offset n) (align n) x.
End Load.

Module Store.
Record t (E : Type) : Type := mk {
  bytes : Z;
  offset : Z;
  align : Z;
  ptr : option E;
  value : option E
}.
Arguments mk {E}.
Arguments bytes {E}.
Arguments offset {E}.
Arguments align {E}.
Arguments ptr {E}.
Arguments value {E}.
End Store.

Module Const.
Record t : Type := mk { value : Literal.t }.
End Const.

Module Unary.
Record t (E : Type) : Type := mk { op : UnaryOp.t; value : option E }.
Arguments mk {E}.
Arguments op {E}.
Arguments value {E}.
End Unary.

Module Binary.
Record t (E : Type) : Type := mk { op : BinaryOp.t; left : option E; right : option E }.
Arguments mk {E}.
Arguments op {E}.
Arguments left {E}.
Arguments right {E}.
End Binary.

Module Compare.
Record t (E : Type) : Type := mk { op : RelationalOp.t; left : option E; right : option E }.
Arguments mk {E}.
Arguments op {E}.
Arguments left {E}.
Arguments right {E}.
End Compare.

Module Convert.
Record t (E : Type) : Type := mk { op : ConvertOp.t; value : option E }.
Arguments mk {E}.
Arguments op {E}.
Arguments value {E}.
End Convert.

Module Host.
Record t (E : Type) : Type := mk { op : HostOp.t; operands : list E }.
Arguments mk {E}.
Arguments op {E}.
Arguments operands {E}.
End Host.

(** [class Expression] and the classes derived from it, as one closed
    type: a value is a node of one of the classes with its fields. *)
#[warnings="-register-all"]
Inductive Expression : Type :=
| Nop
| Block (n : Block.t Expression)
| If (n : If.t Expression)
| Loop (n : Loop.t Expression)
| Label (n : Label.t)
| Break (n : Break.t Expression)
| Switch (n : Switch.t Expression)
| Call (n : Call.t Expression)
| CallImport (n : Call.t Expression)
| CallIndirect (n : CallIndirect.t Expression)
| GetLocal (n : GetLocal.t)
| SetLocal (n : SetLocal.t Expression)
| Load (n : Load.t Expression)
| Store (n : Store.t Expression)
| Const (n : Const.t)
| Unary (n : Unary.t Expression)
| Binary (n : Binary.t Expression)
| Compare (n : Compare.t Expression)
| Convert (n : Convert.t Expression)
| Host (n : Host.t Expression).

Definition ExpressionList : Type := list Expression.

(** ** Globals *)

Module NameType.
Record t : Type := mk { name : Name; type : BasicType }.
End NameType.

Module CustomType.
Record t : Type := mk { self : NameType.t; params : list NameType.t }.
End CustomType.

Module Function.
Record t : Type := mk {
  self : NameType.t;
  params : list NameType.t;
  locals : list NameType.t
}.
End Function.

(* [Import] and [Export] are keywords after [Module]: [Import_], [Export_] *)
Module Import_.
Record t : Type := mk { name : Name; type : CustomType.t }.
End Import_.

Module Export_.
Record t : Type := mk { name : Name; value : Var }.
End Export_.

Module Table.
Record t : Type := mk { vars : list Var }.
End Table.

(** What a [void*] of the module's map points to.  The only entities the
    properties below register are functions: the pointer to a function is
    its position in [functions]. *)
Inductive entity : Type :=
| FunctionEntity (position : nat).

Definition to_unsigned (z : Z) : Z := z mod 2 ^ 32.

(** [class Module] ([Module] is a keyword of Rocq, hence the name). *)
Module WasmModule.
Record t : Type := mk {
  (* wasm contents *)
  customTypes : list CustomType.t;
  functions : list Function.t;
  imports : list Import_.t;
  exports : list Export_.t;
  table : Table.t;
  (* internals *)
  map : gmap Var entity; (* maps var ids/names to things *)
  nextVar : Z;
  allocator : Arena
}.

(** [Module() : nextVar(1) {}]: the vectors and the map start empty, the
    arena as [Arena_new] gives it. *)
Definition new (indeterminate : Z) : t :=
  mk [] [] [] [] (Table.mk []) ∅ 1 (Arena_new indeterminate).

(** Modelled from the spec: the operation that mints a fresh numeric
    identifier, which wasm.h does not define.  "a monotonically increasing
    counter for minting fresh numeric identifiers (starts at 1; 0 is
    reserved as null)"; "minting mutates the counter"; the identifier is a
    [Var], "freshly minted by the module's counter": [Var(nextVar++)],
    through the numeric constructor of [Var]. *)
Definition mint (m : t) : option (Var * t) :=
  match Var_of_num (nextVar m) with
  | None => None
  | Some v =>
      Some (v, mk (customTypes m) (functions m) (imports m) (exports m)
                  (table m) (map m) (to_unsigned (nextVar m + 1)) (allocator m))
  end.

(** [n] mints in a row, with the identifiers in the order they came. *)
Fixpoint mints (n : nat) (m : t) : option (list Var * t) :=
  match n with
  | O => Some ([], m)
  | S k =>
      match mint m with
      | None => None
      | Some (v, m1) =>
          match mints k m1 with
          | None => None
          | Some (vs, m2) => Some (v :: vs, m2)
          end
      end
  end.

(** Modelled from the spec: registering a [Function], which wasm.h does
    not define.  "register a CustomType/Function/Import/Export"; "every
    registration mutates the resolution map"; "the map must faithfully
    reflect every registered entity".  The function is appended to
    [functions] and the map binds [Var(f.self.name)] to it. *)
Definition addFunction (f : Function.t) (m : t) : option t :=
  match Var_of_name (NameType.name (Function.self f)) with
  | None => None
  | Some v =>
      Some (mk (customTypes m) (functions m ++ [f]) (imports m) (exports m)
               (table m) (<[v := FunctionEntity (length (functions m))]> (map m))
               (nextVar m) (allocator m))
  end.

Fixpoint addFunctions (fs : list Function.t) (m : t) : option t :=
  match fs with
  | [] => Some m
  | f :: rest =>
      match addFunction f m with
      | None => None
      | Some m1 => addFunctions rest m1
      end
  end.

(** The condition a failed resolution reports. *)
Inductive resolution_error : Type := UnresolvedReference.

(** Modelled from the spec: resolving a [Var], which wasm.h does not
    define.  "Resolution is a pure lookup: given a Var, consult the
    module's map; absence is a consumer-level error (unresolved
    reference), not silently defaulted." *)
Definition resolve (m : t) (v : Var) : resolution_error + entity :=
  match map m !! v with
  | Some e => inr e
  | None => inl UnresolvedReference
  end.

(** The function an entity denotes in a module. *)
Definition function_of (m : t) (e : entity) : option Function.t :=
  match e with
  | FunctionEntity position => functions m !! position
  end.
End WasmModule.

(** ** The arena over the integers, its pointers in order, its teardown *)

(** [alloc] read over the integers: the same statements with no conversion
    applied and the rounding done by division. *)
Definition Arena_alloc_exact (sizeofT : Z) (a : Arena) : option (pointer * Arena) :=
  let currSize := 8 * ((sizeofT + 7) / 8) in
  if negb (currSize <? CHUNK_SIZE) then None else
  let a1 :=
    if (length (chunks a) =? 0)%nat || (CHUNK_SIZE <=? index a + currSize)
    then Arena_new_chunk a
    else a in
  let ret : pointer := (List.last (chunks a1) 0%nat, index a1) in
  Some (ret, {| chunks := chunks a1; index := index a1 + currSize |}).

(** The order of pointers: by block, then by offset. *)
Definition pointer_lt (p q : pointer) : Prop :=
  (fst p < fst q)%nat \/ (fst p = fst q /\ snd p < snd q).

(** Bytes a run has put to use when no request is larger than [m]: a
    closed chunk counts for [CHUNK_SIZE - m], the last chunk for its
    cursor. *)
Definition packed (m : Z) (a : Arena) : Z :=
  match chunks a with
  | [] => 0
  | _ => (Z.of_nat (length (chunks a)) - 1) * (CHUNK_SIZE - m) + index a
  end.

(** The blocks alive on the heap. *)
Definition heap : Type := gset block.

(** [delete[] chunk]: the block must be alive, and is no more afterwards;
    deleting a block that is not alive is undefined, rendered as [None]. *)
Definition delete_array (chunk : block) (h : heap) : option heap :=
  if decide (chunk ∈ h) then Some (h ∖ {[chunk]}) else None.

(** [for (char* chunk : chunks) delete[] chunk;] *)
Fixpoint delete_chunks (cs : list block) (h : heap) : option heap :=
  match cs with
  | [] => Some h
  | chunk :: rest =>
      match delete_array chunk h with
      | None => None
      | Some h1 => delete_chunks rest h1
      end
  end.

(** [~Arena()] *)
Definition Arena_destroy (a : Arena) (h : heap) : option heap :=
  delete_chunks (chunks a) h.
(** ** Arithmetic of the rounded size *)

Lemma to_size_t_small z : 0 <= z < SIZE_MODULUS -> to_size_t z = z.
Proof. intros H. unfold to_size_t. apply Z.mod_small. exact H. Qed.

Lemma to_int_small z : - 2 ^ 31 <= z < 2 ^ 31 -> to_int z = z.
Proof.
  intros H. unfold to_int. rewrite Z.mod_small; lia.
Qed.

Lemma land_minus_8 x : 0 <= x < SIZE_MODULUS ->
  Z.land x (to_size_t (-8)) = 8 * (x / 8).
Proof.
  intros Hx.
  assert (E : to_size_t (-8) = Z.land (-8) (Z.ones 64)).
  { unfold to_size_t, SIZE_MODULUS. rewrite Z.land_ones by lia. reflexivity. }
  rewrite E, (Z.land_comm (-8)), Z.land_assoc, Z.land_ones by lia.
  change (2 ^ 64) with SIZE_MODULUS. rewrite Z.mod_small by exact Hx.
  change (-8) with (Z.lnot (Z.ones 3)).
  rewrite <- Z.ldiff_land, Z.ldiff_ones_r by lia.
  rewrite Z.shiftr_div_pow2, Z.shiftl_mul_pow2 by lia.
  change (2 ^ 3) with 8. lia.
Qed.

Lemma currSize_of_eq sizeofT : sizeof_ok sizeofT ->
  currSize_of sizeofT = 8 * ((sizeofT + 7) / 8).
Proof.
  intros [H1 H2]. unfold currSize_of, PTRDIFF_MAX in *.
  assert (B : 0 <= sizeofT + 7 < SIZE_MODULUS) by (unfold SIZE_MODULUS; lia).
  rewrite (to_size_t_small _ B). apply land_minus_8. exact B.
Qed.

Lemma currSize_of_bounds sizeofT : sizeof_ok sizeofT ->
  sizeofT <= currSize_of sizeofT < sizeofT + 8
  /\ 8 <= currSize_of sizeofT
  /\ currSize_of sizeofT mod 8 = 0.
Proof.
  intros H. rewrite (currSize_of_eq _ H). destruct H as [H1 H2].
  pose proof (Z.div_mod (sizeofT + 7) 8 ltac:(lia)) as D.
  pose proof (Z.mod_pos_bound (sizeofT + 7) 8 ltac:(lia)) as M.
  repeat split; try lia.
  rewrite Z.mul_comm. apply Z.mod_mul. lia.
Qed.

(** ** One allocation step *)

(** Conversions of values that are in range leave them as they are. *)
Ltac range_side := unfold SIZE_MODULUS, CHUNK_SIZE in *; lia.

Ltac in_range :=
  repeat match goal with
    | |- context [to_size_t ?z] => rewrite (to_size_t_small z) by range_side
    | |- context [to_int ?z] => rewrite (to_int_small z) by range_side
    end.

Ltac in_range_in H :=
  repeat match type of H with
    | context [to_size_t ?z] => rewrite (to_size_t_small z) in H by range_side
    | context [to_int ?z] => rewrite (to_int_small z) in H by range_side
    end.

Lemma Arena_alloc_aborts_iff sizeofT a :
  Arena_alloc sizeofT a = None <-> CHUNK_SIZE <= currSize_of sizeofT.
Proof.
  unfold Arena_alloc.
  destruct (currSize_of sizeofT <? CHUNK_SIZE) eqn:E; simpl.
  - apply Z.ltb_lt in E. split; [discriminate | lia].
  - apply Z.ltb_ge in E. split; [intros _; exact E | reflexivity].
Qed.

Lemma last_seq_0 n d : (0 < n)%nat -> List.last (seq 0 n) d = pred n.
Proof.
  destruct n as [|k]; [lia|]. intros _.
  rewrite seq_S. simpl. apply last_last.
Qed.

Lemma nonempty_length {A} (l : list A) : l <> [] -> (0 < length l)%nat.
Proof. destruct l; [contradiction | simpl; lia]. Qed.

Lemma Arena_new_wf indeterminate : Arena_wf (Arena_new indeterminate).
Proof. split; [reflexivity | left; reflexivity]. Qed.

Section AllocStep.

(** One successful call of [alloc] on a well-formed arena. *)
Context (sizeofT : Z) (a a' : Arena) (p : pointer).
Context (Hwf : Arena_wf a) (Hs : sizeof_ok sizeofT).
Context (Halloc : Arena_alloc sizeofT a = Some (p, a')).

(** What the step does: either it opens chunk number [length (chunks a)]
    and returns its first byte, or it returns the cursor of the last chunk
    and advances it. *)
Lemma Arena_alloc_step :
  currSize_of sizeofT < CHUNK_SIZE
  /\ ((chunks a' = chunks a ++ [length (chunks a)]
       /\ p = (length (chunks a), 0)
       /\ index a' = currSize_of sizeofT
       /\ (chunks a = [] \/ CHUNK_SIZE <= index a + currSize_of sizeofT))
      \/ (chunks a' = chunks a
          /\ chunks a <> []
          /\ p = (pred (length (chunks a)), index a)
          /\ index a' = index a + currSize_of sizeofT
          /\ index a + currSize_of sizeofT < CHUNK_SIZE)).
Proof.
  destruct Hwf as [Hseq Hidx]. pose proof Halloc as H.
  pose proof (currSize_of_bounds _ Hs) as (Hb & H8 & Hm).
  unfold Arena_alloc in H. cbv zeta in H.
  destruct (currSize_of sizeofT <? CHUNK_SIZE) eqn:E;
    cbn [negb] in H; [|discriminate].
  apply Z.ltb_lt in E. split; [exact E|].
  destruct ((length (chunks a) =? 0)%nat
            || (CHUNK_SIZE <=? to_size_t (to_size_t (index a) + currSize_of sizeofT)))
    eqn:Ecnd.
  - injection H as Hp Ha. subst p a'. left.
    unfold Arena_new_chunk. cbn [chunks index].
    rewrite last_last. change (to_size_t 0) with 0. in_range.
    split_and!; auto.
    destruct Hidx as [Hnil | [Hi Hi8]]; [left; exact Hnil|].
    apply orb_true_iff in Ecnd. destruct Ecnd as [En | El].
    + left. apply Nat.eqb_eq in En. apply length_zero_iff_nil. exact En.
    + right. apply Z.leb_le in El. in_range_in El. exact El.
  - injection H as Hp Ha. subst p a'. right. cbn [chunks index].
    apply orb_false_iff in Ecnd. destruct Ecnd as [En El].
    apply Nat.eqb_neq in En.
    destruct Hidx as [Hnil | [Hi Hi8]]; [rewrite Hnil in En; simpl in En; lia|].
    apply Z.leb_gt in El. in_range_in El. in_range.
    split_and!; auto.
    + intros Hnil. rewrite Hnil in En. simpl in En. lia.
    + rewrite Hseq at 1. rewrite last_seq_0 by lia. reflexivity.
Qed.

Lemma Arena_alloc_wf : Arena_wf a'.
Proof.
  pose proof (currSize_of_bounds _ Hs) as (Hb & H8 & Hm).
  destruct Arena_alloc_step as (Hc & Hcase).
  destruct Hwf as [Hseq Hidx].
  destruct Hcase as [(Ech & _ & Ei & _) | (Ech & Hne & _ & Ei & Hlt)].
  - split.
    + rewrite Ech, length_app. simpl length.
      rewrite Nat.add_1_r, seq_S. simpl. rewrite <- Hseq. reflexivity.
    + right. rewrite Ei. lia.
  - split.
    + rewrite Ech. exact Hseq.
    + right. rewrite Ei. destruct Hidx as [Hidx | [Hi Hi8]]; [contradiction|].
      split; [lia|]. rewrite Z.add_mod, Hi8, Hm by lia. reflexivity.
Qed.

(** The block is in the last chunk, ends at the new cursor and starts on an
    8-byte boundary. *)
Lemma Arena_alloc_last_chunk :
  List.last (chunks a') 0%nat = fst p
  /\ snd p + currSize_of sizeofT = index a'
  /\ snd p mod 8 = 0.
Proof.
  destruct Arena_alloc_step as (Hc & Hcase).
  destruct Hwf as [Hseq Hidx].
  destruct Hcase as [(Ech & -> & Ei & _) | (Ech & Hne & -> & Ei & Hlt)];
    cbn [fst snd].
  - rewrite Ei, Ech, last_last. auto.
  - destruct Hidx as [? | [Hi Hi8]]; [contradiction|].
    split_and!; auto.
    rewrite Ech. rewrite Hseq at 1. apply last_seq_0.
    apply nonempty_length. exact Hne.
Qed.

Lemma Arena_alloc_consumed :
  consumed a + currSize_of sizeofT <= consumed a'
  /\ (length (chunks a) <= length (chunks a'))%nat.
Proof.
  destruct Arena_alloc_step as (Hc & Hcase).
  destruct Hwf as [_ Hidx]. unfold consumed.
  destruct Hcase as [(Ech & _ & Ei & Hwhy) | (Ech & Hne & _ & Ei & Hlt)].
  - rewrite Ech, Ei. rewrite length_app. simpl length.
    destruct (chunks a) as [|b l] eqn:Ec; simpl app; cbv iota.
    + simpl length. split; lia.
    + destruct Hidx as [? | [Hi _]]; [discriminate|].
      split; [|lia]. rewrite Nat2Z.inj_add. simpl Z.of_nat. lia.
  - rewrite Ech, Ei. destruct (chunks a); [contradiction|]. split; lia.
Qed.

(** The pointer returned is at the old cursor or past it, its block is
    inside the chunk, and it is behind the new cursor. *)
Lemma Arena_alloc_returns_past :
  past_cursor a p /\ within_chunk (region_of p (currSize_of sizeofT))
  /\ ~ past_cursor a' p.
Proof.
  pose proof (currSize_of_bounds _ Hs) as (Hb & H8 & Hm).
  destruct Arena_alloc_step as (Hc & Hcase).
  destruct Hwf as [_ Hidx]. unfold past_cursor, within_chunk, region_of.
  destruct Hcase as [(Ech & -> & Ei & _) | (Ech & Hne & -> & Ei & Hlt)];
    cbn [fst snd r_offset r_size]; rewrite Ech, Ei.
  - rewrite length_app. simpl length. repeat split; try lia.
  - destruct Hidx as [? | [Hi _]]; [contradiction|].
    pose proof (nonempty_length _ Hne).
    repeat split; try lia.
Qed.

(** Whatever is past the new cursor was past the old one, and shares no
    byte with the block just returned. *)
Lemma Arena_alloc_later_past q size :
  past_cursor a' q ->
  past_cursor a q
  /\ disjoint_regions (region_of p (currSize_of sizeofT)) (region_of q size).
Proof.
  intros Hq.
  pose proof (currSize_of_bounds _ Hs) as (Hb & H8 & Hm).
  destruct Arena_alloc_step as (Hc & Hcase).
  destruct Hwf as [_ Hidx].
  unfold past_cursor, disjoint_regions, region_of in *.
  cbn [r_block r_offset r_size].
  destruct Hcase as [(Ech & -> & Ei & _) | (Ech & Hne & -> & Ei & Hlt)];
    cbn [fst snd]; rewrite Ech, Ei in Hq.
  - rewrite length_app in Hq. simpl length in Hq. split; lia.
  - pose proof (nonempty_length _ Hne). split; lia.
Qed.

Lemma later_regions_disjoint qs (szs : list Z) :
  Forall (past_cursor a') qs ->
  Forall (disjoint_regions (region_of p (currSize_of sizeofT)))
         (zip_with region_of qs szs).
Proof.
  intros Hqs. revert szs.
  induction Hqs as [|q qs Hq _ IH]; intros [|z szs]; simpl; constructor.
  - exact (proj2 (Arena_alloc_later_past q z Hq)).
  - apply IH.
Qed.

End AllocStep.

Create HintDb arena.
#[global] Hint Resolve Arena_new_wf reach_new Arena_alloc_wf : arena.

(** ** Runs of allocations *)

Lemma Arena_reachable_wf a : Arena_reachable a -> Arena_wf a.
Proof. induction 1; eauto with arena. Qed.

(** A run of requests that pass the assertion never aborts; it leaves a
    well-formed arena, and the blocks it returned are inside their chunks,
    pairwise disjoint and all past the cursor it started from. *)
Lemma Arena_allocs_run sizes : forall a,
  Arena_wf a -> Forall request_ok sizes ->
  exists ps a',
    Arena_allocs sizes a = Some (ps, a')
    /\ Arena_wf a'
    /\ length ps = length sizes
    /\ consumed a + Zsum (map currSize_of sizes) <= consumed a'
    /\ (length (chunks a) <= length (chunks a'))%nat
    /\ Forall (past_cursor a) ps
    /\ NoDup ps
    /\ ForallOrdPairs disjoint_regions (regions_of ps sizes)
    /\ Forall within_chunk (regions_of ps sizes).
Proof.
  induction sizes as [|s rest IH]; intros a Hwf Hok.
  - exists [], a. simpl.
    split_and!; auto; try lia; constructor.
  - inversion Hok as [|? ? [Hs Hc] Hrest]; subst.
    destruct (Arena_alloc s a) as [[p a1]|] eqn:E.
    2:{ apply Arena_alloc_aborts_iff in E. lia. }
    pose proof (Arena_alloc_wf _ _ _ _ Hwf Hs E) as Hwf1.
    destruct (IH a1 Hwf1 Hrest)
      as (ps & a' & Erun & Hwf' & Hlen & Hsum & Hch & Hpast & Hnd & Hdis & Hin).
    destruct (Arena_alloc_consumed _ _ _ _ Hwf Hs E) as [Hsum1 Hch1].
    destruct (Arena_alloc_returns_past _ _ _ _ Hwf Hs E) as (Hp & Hpin & Hnp).
    exists (p :: ps), a'. simpl. rewrite E, Erun.
    split_and!; auto; try lia.
    + constructor; [exact Hp|].
      eapply Forall_impl; [exact Hpast|]. intros q Hq.
      exact (proj1 (Arena_alloc_later_past _ _ _ _ Hwf Hs E q 0 Hq)).
    + constructor; [|exact Hnd].
      intros Hel. rewrite Forall_forall in Hpast. exact (Hnp (Hpast _ Hel)).
    + constructor; [|exact Hdis].
      exact (later_regions_disjoint _ _ _ _ Hwf Hs E _ _ Hpast).
    + constructor; [exact Hpin | exact Hin].
Qed.

(** The bytes consumed determine the number of chunks. *)
Lemma consumed_range a :
  Arena_wf a ->
  let n := Z.max 1 (Z.of_nat (length (chunks a))) in
  n * CHUNK_SIZE <= consumed a < (n + 1) * CHUNK_SIZE.
Proof.
  intros [_ Hidx]. unfold consumed, CHUNK_SIZE in *. cbv zeta.
  destruct (chunks a) as [|b l]; [simpl; lia|].
  destruct Hidx as [? | [Hi _]]; [discriminate|].
  simpl length. lia.
Qed.

(** ** The allocator on small inputs *)

Example currSize_of_char : currSize_of 1 = 8.
Proof. reflexivity. Qed.

Example currSize_of_9992 : currSize_of 9992 = 9992.
Proof. reflexivity. Qed.

Example currSize_of_9993 : currSize_of 9993 = 10000.
Proof. reflexivity. Qed.

(** The first allocation opens a chunk whatever the cursor held. *)
Example alloc_first indeterminate :
  Arena_alloc 12 (Arena_new indeterminate)
  = Some ((0%nat, 0), mkArena [0%nat] 16).
Proof. reflexivity. Qed.

(** Two requests of 6000 bytes do not fit one chunk. *)
Example allocs_two_chunks :
  Arena_allocs [6000; 6000] (Arena_new 0)
  = Some ([(0%nat, 0); (1%nat, 0)], mkArena [0%nat; 1%nat] 6000).
Proof. reflexivity. Qed.

(** A request that would end exactly at [CHUNK_SIZE] goes to a new chunk. *)
Example allocs_exact_fill :
  Arena_allocs [9992; 8] (Arena_new 0)
  = Some ([(0%nat, 0); (1%nat, 0)], mkArena [0%nat; 1%nat] 8).
Proof. reflexivity. Qed.

(** One byte less and it stays in the chunk. *)
Example allocs_almost_fill :
  Arena_allocs [9984; 8] (Arena_new 0)
  = Some ([(0%nat, 0); (0%nat, 9984)], mkArena [0%nat] 9992).
Proof. reflexivity. Qed.

(** ** The constructors of Var *)

Lemma Var_of_num_Some num v :
  Var_of_num num = Some v <-> 0 < num < MAX_NUM /\ v = mkVar member_num num.
Proof.
  unfold Var_of_num.
  destruct (0 <? num) eqn:E1; destruct (num <? MAX_NUM) eqn:E2; simpl;
    try apply Z.ltb_lt in E1; try apply Z.ltb_ge in E1;
    try apply Z.ltb_lt in E2; try apply Z.ltb_ge in E2;
    (split; [intros H; try discriminate; injection H as <-; auto
            | intros [H ->]; try lia; reflexivity]).
Qed.

Lemma Var_of_name_Some str v :
  Var_of_name str = Some v <-> MAX_NUM < str /\ v = mkVar member_str str.
Proof.
  unfold Var_of_name.
  destruct (MAX_NUM <? str) eqn:E;
    [apply Z.ltb_lt in E | apply Z.ltb_ge in E];
    (split; [intros H; try discriminate; injection H as <-; auto
            | intros [H ->]; try lia; reflexivity]).
Qed.

Lemma word_is_num_iff w : word_is_num w = true <-> 0 < w < MAX_NUM.
Proof. unfold word_is_num. rewrite andb_true_iff, !Z.ltb_lt. tauto. Qed.



Lemma Var_is_num_iff v : Var_is_num v = true <-> 0 < Var_num v < MAX_NUM.
Proof. apply word_is_num_iff. Qed.

(** A numeric value read back through [num]. *)
Lemma Var_num_written m num :
  0 <= num < MAX_NUM -> Var_num (mkVar m num) = num.
Proof.
  intros H. unfold Var_num, UNSIGNED_MODULUS, MAX_NUM in *. cbn [Var_rep].
  apply Z.mod_small. lia.
Qed.




(** ** Var on small inputs *)

Example Var_of_num_1 : Var_of_num 1 = Some (mkVar member_num 1).
Proof. reflexivity. Qed.

Example Var_of_num_0 : Var_of_num 0 = None.
Proof. reflexivity. Qed.

Example Var_of_num_MAX_NUM : Var_of_num MAX_NUM = None.
Proof. reflexivity. Qed.

Example Var_of_name_MAX_NUM : Var_of_name MAX_NUM = None.
Proof. reflexivity. Qed.

Example Var_of_name_above :
  Var_of_name 1000001 = Some (mkVar member_str 1000001).
Proof. reflexivity. Qed.

(** Read through [num], the name at address 2^32 + 7 shows 7. *)
Example Var_num_of_name : Var_num (mkVar member_str 4294967303) = 7.
Proof. reflexivity. Qed.

(** Read through [str], the numeric identifier 7 built where the bytes
    beyond [num] held 0xFFFFFFFF shows 0xFFFFFFFF00000007. *)
Example Var_str_of_num :
  Var_str 4294967295 (mkVar member_num 7) = 18446744069414584327.
Proof. reflexivity. Qed.

(** The spec's words give the null identifier no case of equality. *)
Example Var_eqb_null : Var_eqb 0 Var_default 0 Var_default = false.
Proof. reflexivity. Qed.

(** ** The counter and the map of a module *)

Lemma to_unsigned_small z : 0 <= z < 2 ^ 32 -> to_unsigned z = z.
Proof. intros H. unfold to_unsigned. apply Z.mod_small. exact H. Qed.

Lemma mint_Some m :
  0 < WasmModule.nextVar m < MAX_NUM ->
  exists m',
    WasmModule.mint m = Some (mkVar member_num (WasmModule.nextVar m), m')
    /\ WasmModule.nextVar m' = WasmModule.nextVar m + 1.
Proof.
  intros H. unfold WasmModule.mint.
  rewrite (proj2 (Var_of_num_Some _ _) (conj H eq_refl)).
  eexists. split; [reflexivity|]. cbn [WasmModule.nextVar].
  apply to_unsigned_small. unfold MAX_NUM in H. lia.
Qed.

Lemma mint_None m :
  MAX_NUM <= WasmModule.nextVar m -> WasmModule.mint m = None.
Proof.
  intros H. unfold WasmModule.mint.
  destruct (Var_of_num (WasmModule.nextVar m)) eqn:E; [|reflexivity].
  apply Var_of_num_Some in E. lia.
Qed.

(** While the counter stays below [MAX_NUM], [n] mints yield the
    identifiers of the [n] values from the counter on. *)
Lemma mints_from n : forall m,
  0 < WasmModule.nextVar m ->
  WasmModule.nextVar m + Z.of_nat n <= MAX_NUM ->
  exists m',
    WasmModule.mints n m
    = Some (map (fun k => mkVar member_num (WasmModule.nextVar m + Z.of_nat k)) (seq 0 n), m')
    /\ WasmModule.nextVar m' = WasmModule.nextVar m + Z.of_nat n.
Proof.
  induction n as [|n IH]; intros m H0 Hn.
  - exists m. simpl. split; [reflexivity | lia].
  - destruct (mint_Some m ltac:(lia)) as (m1 & E1 & Hc1).
    destruct (IH m1 ltac:(lia) ltac:(lia)) as (m' & E & Hc).
    exists m'. cbn [WasmModule.mints]. rewrite E1, E. split; [|lia].
    cbn [seq map]. rewrite Z.add_0_r. do 3 f_equal.
    rewrite <- seq_shift, map_map. apply map_ext. intros k.
    f_equal. lia.
Qed.

(** Once the counter would pass [MAX_NUM], the run of mints aborts. *)
Lemma mints_abort n : forall m,
  0 < WasmModule.nextVar m <= MAX_NUM ->
  MAX_NUM < WasmModule.nextVar m + Z.of_nat n ->
  WasmModule.mints n m = None.
Proof.
  induction n as [|n IH]; intros m H0 Hn.
  - lia.
  - cbn [WasmModule.mints].
    destruct (Z.eq_dec (WasmModule.nextVar m) MAX_NUM) as [Heq | Hne].
    + rewrite mint_None by lia. reflexivity.
    + destruct (mint_Some m ltac:(lia)) as (m1 & E1 & Hc1).
      rewrite E1. rewrite IH by lia. reflexivity.
Qed.

Lemma addFunctions_keeps_other_names fs : forall m m' v,
  WasmModule.addFunctions fs m = Some m' ->
  (forall f, f ∈ fs -> Var_of_name (NameType.name (Function.self f)) <> Some v) ->
  WasmModule.map m' !! v = WasmModule.map m !! v.
Proof.
  induction fs as [|f fs IH]; intros m m' v H Hv.
  - injection H as <-. reflexivity.
  - cbn [WasmModule.addFunctions] in H.
    destruct (WasmModule.addFunction f m) as [m1|] eqn:E1; [|discriminate].
    rewrite (IH m1 m' v H) by (intros g Hg; apply Hv; right; exact Hg).
    unfold WasmModule.addFunction in E1.
    destruct (Var_of_name (NameType.name (Function.self f))) as [w|] eqn:Ew;
      [|discriminate].
    injection E1 as <-. cbn [WasmModule.map].
    apply lookup_insert_ne. intros ->. apply (Hv f); [left | exact Ew].
Qed.

(** ** The module on small inputs *)

Example mints_3 :
  fst <$> WasmModule.mints 3 (WasmModule.new 0)
  = Some [mkVar member_num 1; mkVar member_num 2; mkVar member_num 3].
Proof. reflexivity. Qed.

Example resolve_fresh v indeterminate :
  WasmModule.resolve (WasmModule.new indeterminate) v
  = inl WasmModule.UnresolvedReference.
Proof. unfold WasmModule.resolve. cbn [WasmModule.new WasmModule.map].
       rewrite lookup_empty. reflexivity. Qed.

(** A function whose name lies at too low an address cannot be registered. *)
Example addFunction_low_name m :
  WasmModule.addFunction (Function.mk (NameType.mk 1024 i32) [] []) m = None.
Proof. reflexivity. Qed.

(** * The properties *)

(** ** Var *)







(** C2: misuse of a constructor or of the arena aborts.  A request for a
    type larger than a chunk fails the assertion of [alloc], from any state
    of the arena; a numeric value outside (0, [MAX_NUM]) fails the
    assertion of [Var(unsigned)]; a name whose address is not above
    [MAX_NUM] fails the assertion of [Var(Name)].  None of them returns. *)
Theorem construction_misuse_aborts (a : Arena) (sizeofT num : Z) (str : Name) :
  CHUNK_SIZE < sizeofT <= PTRDIFF_MAX ->
  num <= 0 \/ MAX_NUM <= num ->
  str <= MAX_NUM ->
  Arena_alloc sizeofT a = None
  /\ Var_of_num num = None
  /\ Var_of_name str = None.
Proof.
  intros Hs Hn Hstr. split; [|split].
  - apply Arena_alloc_aborts_iff.
    assert (Hok : sizeof_ok sizeofT) by (unfold sizeof_ok, CHUNK_SIZE in *; lia).
    pose proof (currSize_of_bounds _ Hok). lia.
  - destruct (Var_of_num num) eqn:E; [|reflexivity].
    apply Var_of_num_Some in E. lia.
  - destruct (Var_of_name str) eqn:E; [|reflexivity].
    apply Var_of_name_Some in E. lia.
Qed.

Lemma construction_misuse_aborts_witness :
  Arena_alloc 10001 (Arena_new 0) = None
  /\ Var_of_num 0 = None
  /\ Var_of_name 4096 = None.
Proof.
  apply (construction_misuse_aborts (Arena_new 0) 10001 0 4096);
    unfold CHUNK_SIZE, PTRDIFF_MAX, MAX_NUM; lia.
Defined.

(** ** Literal *)

(** C3 (the code departs from it): a [Literal] holds its [type] and nothing
    else.  Two literals of one type are the same value, and no way of
    writing a payload into a literal lets every payload be read back. *)
Theorem Literal_stores_no_payload :
  (forall l : Literal.t, l = Literal.mk (Literal.type l))
  /\ (forall (write : BasicType -> Literal.value -> Literal.t)
             (read : Literal.t -> Literal.value),
        exists (t : BasicType) (p : Literal.value), read (write t p) <> p).
Proof.
  split.
  - intros [t]. reflexivity.
  - intros write read.
    set (g := fun t => payload_weight (read (Literal.mk t))).
    set (m := 1 + g none + g i32 + g i64 + g f32 + g f64).
    assert (Hg : forall t, 0 <= g t).
    { intros t. unfold g, payload_weight.
      destruct (read (Literal.mk t)); apply Z.abs_nonneg. }
    pose proof (Hg none). pose proof (Hg i32). pose proof (Hg i64).
    pose proof (Hg f32). pose proof (Hg f64).
    exists i32, (Literal.i32 m).
    destruct (write i32 (Literal.i32 m)) as [t]. intros Heq.
    apply (f_equal payload_weight) in Heq. change (g t = Z.abs m) in Heq.
    destruct t; lia.
Qed.

(** ** Arena *)

(** C9: after every successful allocation the cursor is strictly between 0
    and [CHUNK_SIZE], and the block returned, [currSize] bytes from the
    returned offset, lies in the arena's last chunk and ends at the cursor.
    A request that would bring the cursor to exactly [CHUNK_SIZE] opens a
    new chunk and gets its first bytes, so no chunk is filled to
    [CHUNK_SIZE]. *)
Theorem Arena_cursor_invariant (a : Arena) (sizeofT : Z) (p : pointer) (a' : Arena) :
  Arena_reachable a -> sizeof_ok sizeofT ->
  Arena_alloc sizeofT a = Some (p, a') ->
  0 < index a' < CHUNK_SIZE
  /\ within_chunk (region_of p (currSize_of sizeofT))
  /\ snd p + currSize_of sizeofT = index a'
  /\ List.last (chunks a') 0%nat = fst p
  /\ (chunks a <> [] -> index a + currSize_of sizeofT = CHUNK_SIZE ->
      chunks a' = chunks a ++ [length (chunks a)]
      /\ p = (length (chunks a), 0)).
Proof.
  intros Hr Hs H.
  pose proof (Arena_reachable_wf _ Hr) as Hwf.
  pose proof (currSize_of_bounds _ Hs) as (Hb & H8 & Hm).
    destruct (Arena_alloc_step _ _ _ _ Hwf Hs H) as (Hc & Hcase).
  destruct (Arena_alloc_returns_past _ _ _ _ Hwf Hs H) as (_ & Hin & _).
  destruct (Arena_alloc_last_chunk _ _ _ _ Hwf Hs H) as (Hlast & Hend & _).
  destruct Hwf as [Hseq Hidx].
  destruct Hcase as [(Ech & Ep & Ei & _) | (Ech & Hne & Ep & Ei & Hlt)].
  - split_and!; auto; lia.
  - destruct Hidx as [? | [Hi _]]; [contradiction|].
    split_and!; auto; lia.
Qed.

Lemma Arena_cursor_invariant_witness :
  0 < index (mkArena [0%nat; 1%nat] 8) < CHUNK_SIZE
  /\ within_chunk (region_of (1%nat, 0) (currSize_of 8))
  /\ snd (1%nat, 0) + currSize_of 8 = index (mkArena [0%nat; 1%nat] 8)
  /\ List.last (chunks (mkArena [0%nat; 1%nat] 8)) 0%nat = fst (1%nat, 0)
  /\ (chunks (mkArena [0%nat] 9992) <> [] ->
      index (mkArena [0%nat] 9992) + currSize_of 8 = CHUNK_SIZE ->
      chunks (mkArena [0%nat; 1%nat] 8)
      = chunks (mkArena [0%nat] 9992) ++ [length (chunks (mkArena [0%nat] 9992))]
      /\ (1%nat, 0) = (length (chunks (mkArena [0%nat] 9992)), 0)).
Proof.
  apply (Arena_cursor_invariant (mkArena [0%nat] 9992) 8 (1%nat, 0)
           (mkArena [0%nat; 1%nat] 8)).
  - apply (reach_alloc (Arena_new 0) 9992 (0%nat, 0)).
    + apply reach_new.
    + unfold sizeof_ok, PTRDIFF_MAX. lia.
    + reflexivity.
  - unfold sizeof_ok, PTRDIFF_MAX. lia.
  - reflexivity.
Defined.

(** C6: a run of allocations whose rounded sizes sum to more than
    [CHUNK_SIZE] opens at least one chunk more, so the arena ends with two
    chunks or more; the pointers returned are pairwise distinct and their
    blocks, each inside one chunk, share no byte. *)
Theorem Arena_allocs_spill_and_stay_apart (a : Arena) (sizes : list Z) :
  Arena_reachable a -> Forall request_ok sizes ->
  CHUNK_SIZE < Zsum (map currSize_of sizes) ->
  exists ps a',
    Arena_allocs sizes a = Some (ps, a')
    /\ length ps = length sizes
    /\ (length (chunks a) < length (chunks a'))%nat
    /\ (2 <= length (chunks a'))%nat
    /\ NoDup ps
    /\ ForallOrdPairs disjoint_regions (regions_of ps sizes)
    /\ Forall within_chunk (regions_of ps sizes).
Proof.
  intros Hr Hok Hsum.
  pose proof (Arena_reachable_wf _ Hr) as Hwf.
  destruct (Arena_allocs_run sizes a Hwf Hok)
    as (ps & a' & Erun & Hwf' & Hlen & Hcons & Hch & _ & Hnd & Hdis & Hin).
  exists ps, a'.
  pose proof (consumed_range _ Hwf) as Ha. pose proof (consumed_range _ Hwf') as Ha'.
  cbv zeta in Ha, Ha'. unfold CHUNK_SIZE in *.
  split_and!; auto; lia.
Qed.

Lemma Arena_allocs_spill_and_stay_apart_witness :
  exists ps a',
    Arena_allocs [6000; 6000] (Arena_new 0) = Some (ps, a')
    /\ length ps = length [6000; 6000]
    /\ (length (chunks (Arena_new 0)) < length (chunks a'))%nat
    /\ (2 <= length (chunks a'))%nat
    /\ NoDup ps
    /\ ForallOrdPairs disjoint_regions (regions_of ps [6000; 6000])
    /\ Forall within_chunk (regions_of ps [6000; 6000]).
Proof.
  apply (Arena_allocs_spill_and_stay_apart (Arena_new 0) [6000; 6000]).
  - apply reach_new.
  - repeat constructor; unfold PTRDIFF_MAX; lia.
  - vm_compute. reflexivity.
Defined.




(** ** Expression nodes *)

(** C8: the fields of a node read back as they were set, with nothing
    added or altered.  A [Load] whose members are assigned 4, false, 8 and
    an address expression, here the [GetLocal] of the identifier of
    representation 0, is the node of exactly these values, with [align] as
    it was.  A [Switch] to which three cases are pushed, flagged
    (true, true, false), and a default assigned, has these three cases in
    that order with these flags, and that default. *)
Theorem node_fields_read_back
    (l0 : Load.t Expression) (s0_var : Var) (s0_value d : option Expression)
    (v1 v2 v3 : Literal.t) (b1 b2 b3 : option Expression) :
  let address := GetLocal (GetLocal.mk Var_default) in
  let l := Load.set_ptr (Some address)
             (Load.set_offset 8
                (Load.set_signed_ false (Load.set_bytes 4 l0))) in
  let c1 := Switch.Case.mk v1 b1 true in
  let c2 := Switch.Case.mk v2 b2 true in
  let c3 := Switch.Case.mk v3 b3 false in
  let s := Switch.set_default_ d
             (Switch.push_case c3
                (Switch.push_case c2
                   (Switch.push_case c1
                      (Switch.mk s0_var s0_value [] None)))) in
  (Load.bytes l = 4 /\ Load.signed_ l = false /\ Load.offset l = 8
   /\ Load.ptr l = Some address /\ Load.align l = Load.align l0
   /\ l = Load.mk 4 false 8 (Load.align l0) (Some address)
   /\ Var_rep (GetLocal.id (GetLocal.mk Var_default)) = 0)
  /\ (Switch.cases s = [c1; c2; c3]
      /\ map Switch.Case.fallthru (Switch.cases s) = [true; true; false]
      /\ Switch.default_ s = d
      /\ s = Switch.mk s0_var s0_value [c1; c2; c3] d).
Proof.
  cbv zeta. split; split_and!; reflexivity.
Qed.

(** ** Module *)

(** C4, as the code has it: for every [n] below [MAX_NUM], [n] mints on a
    freshly constructed module yield the numeric identifiers 1, 2, ..., [n]
    in that order, none of them null and no two the same, and leave the
    counter at [n + 1]. *)
Theorem mint_yields_1_to_n (indeterminate : Z) (n : nat) :
  Z.of_nat n < MAX_NUM ->
  exists vs m',
    WasmModule.mints n (WasmModule.new indeterminate) = Some (vs, m')
    /\ map Var_rep vs = map Z.of_nat (seq 1 n)
    /\ Forall (fun v => Var_is_num v = true /\ Var_is_null v = false) vs
    /\ NoDup vs
    /\ WasmModule.nextVar m' = Z.of_nat n + 1.
Proof.
  intros Hn.
  destruct (mints_from n (WasmModule.new indeterminate)) as (m' & E & Hc);
    cbn [WasmModule.new WasmModule.nextVar] in *; try lia.
  eexists _, m'. split; [exact E|].
  assert (Hrep : map Var_rep (map (fun k => mkVar member_num (1 + Z.of_nat k)) (seq 0 n))
                 = map Z.of_nat (seq 1 n)).
  { rewrite <- seq_shift, !map_map. apply map_ext. intros k. simpl. lia. }
  split_and!.
  - exact Hrep.
  - apply Forall_forall. intros v Hv. apply list_elem_of_In, in_map_iff in Hv.
    destruct Hv as (k & <- & Hk). apply in_seq in Hk.
    split; [apply Var_is_num_iff | apply Z.eqb_neq];
      rewrite Var_num_written by lia; lia.
  - apply (NoDup_fmap_1 Var_rep). change (NoDup (map Var_rep
      (map (fun k => mkVar member_num (1 + Z.of_nat k)) (seq 0 n)))).
    rewrite Hrep. apply NoDup_fmap_2; [|apply NoDup_seq].
    intros x y. apply Nat2Z.inj.
  - lia.
Qed.

Lemma mint_yields_1_to_n_witness :
  exists vs m',
    WasmModule.mints 3 (WasmModule.new 0) = Some (vs, m')
    /\ map Var_rep vs = map Z.of_nat (seq 1 3)
    /\ Forall (fun v => Var_is_num v = true /\ Var_is_null v = false) vs
    /\ NoDup vs
    /\ WasmModule.nextVar m' = Z.of_nat 3 + 1.
Proof.
  apply (mint_yields_1_to_n 0 3). unfold MAX_NUM. lia.
Defined.

(** C4 as stated fails at [n = MAX_NUM]: the mint that should yield
    [MAX_NUM] aborts in the numeric constructor of [Var], so [MAX_NUM]
    mints on a fresh module yield no list of identifiers. *)
Lemma mint_MAX_NUM_times_counterexample :
  WasmModule.mints (Z.to_nat MAX_NUM) (WasmModule.new 0) = None.
Proof.
  apply mints_abort; cbn [WasmModule.new WasmModule.nextVar].
  - unfold MAX_NUM. lia.
  - rewrite Z2Nat.id; unfold MAX_NUM; lia.
Qed.

(** C5: once a function is registered, resolving the [Var] of its name
    returns that function; resolving a [Var] under which nothing was
    registered reports [UnresolvedReference]. *)
Theorem register_then_resolve
    (indeterminate : Z) (fs : list Function.t) (m : WasmModule.t)
    (f : Function.t) (u : Var) :
  WasmModule.addFunctions fs (WasmModule.new indeterminate) = Some m ->
  MAX_NUM < NameType.name (Function.self f) ->
  (forall g, g ∈ fs ++ [f] ->
     Var_of_name (NameType.name (Function.self g)) <> Some u) ->
  exists v m' e,
    Var_of_name (NameType.name (Function.self f)) = Some v
    /\ WasmModule.addFunction f m = Some m'
    /\ WasmModule.resolve m' v = inr e
    /\ WasmModule.function_of m' e = Some f
    /\ WasmModule.resolve m' u = inl WasmModule.UnresolvedReference.
Proof.
  intros Hm Hname Hu.
  assert (Ev : Var_of_name (NameType.name (Function.self f))
               = Some (mkVar member_str (NameType.name (Function.self f))))
    by (apply Var_of_name_Some; auto).
  destruct (WasmModule.addFunction f m) as [m'|] eqn:E.
  2:{ unfold WasmModule.addFunction in E. rewrite Ev in E. discriminate. }
  exists (mkVar member_str (NameType.name (Function.self f))), m',
         (FunctionEntity (length (WasmModule.functions m))).
  assert (Hu' : WasmModule.map m' !! u = None).
  { assert (Hrun : WasmModule.addFunctions (fs ++ [f]) (WasmModule.new indeterminate)
                   = Some m').
    { clear Hu. revert Hm. generalize (WasmModule.new indeterminate).
      induction fs as [|g fs IH]; intros m0 Hm; cbn in Hm |- *.
      - injection Hm as ->. rewrite E. reflexivity.
      - destruct (WasmModule.addFunction g m0); [auto | discriminate]. }
    rewrite (addFunctions_keeps_other_names _ _ _ u Hrun Hu). reflexivity. }
  unfold WasmModule.addFunction in E. rewrite Ev in E. injection E as <-.
  unfold WasmModule.resolve, WasmModule.function_of in *.
  cbn [WasmModule.map WasmModule.functions] in *.
  rewrite lookup_insert_eq, Hu'. split_and!; auto.
  apply list_lookup_middle. reflexivity.
Qed.

Lemma register_then_resolve_witness :
  exists v m' e,
    Var_of_name 4202496 = Some v
    /\ WasmModule.addFunction
         (Function.mk (NameType.mk 4202496 i32) [] []) (WasmModule.new 0)
       = Some m'
    /\ WasmModule.resolve m' v = inr e
    /\ WasmModule.function_of m' e
       = Some (Function.mk (NameType.mk 4202496 i32) [] [])
    /\ WasmModule.resolve m' (mkVar member_str 4202500)
       = inl WasmModule.UnresolvedReference.
Proof.
  apply (register_then_resolve 0 [] (WasmModule.new 0)
           (Function.mk (NameType.mk 4202496 i32) [] []) (mkVar member_str 4202500)).
  - reflexivity.
  - unfold MAX_NUM. simpl. lia.
  - intros g Hg. apply list_elem_of_singleton in Hg. subst g. discriminate.
Defined.

(** * Further properties of the code *)

(** ** The rounding and the assertion of alloc *)

Lemma currSize_of_multiple k :
  0 <= k -> 8 * k + 7 < SIZE_MODULUS -> currSize_of (8 * k) = 8 * k.
Proof.
  intros Hk Hb. unfold currSize_of.
  rewrite to_size_t_small by lia. rewrite land_minus_8 by lia.
  f_equal. rewrite Z.mul_comm, Z.div_add_l by lia.
  change (7 / 8) with 0. lia.
Qed.

(** X1: whether [alloc] aborts depends on the size alone, never on the
    state of the arena: it aborts exactly for the sizes above
    [CHUNK_SIZE - 8]. *)
Theorem Arena_alloc_aborts_exactly (a : Arena) (sizeofT : Z) :
  sizeof_ok sizeofT ->
  (Arena_alloc sizeofT a = None <-> CHUNK_SIZE - 8 < sizeofT).
Proof.
  intros Hs. rewrite Arena_alloc_aborts_iff, (currSize_of_eq _ Hs).
  destruct Hs as [H1 _]. unfold CHUNK_SIZE. split; intros H.
  - destruct (Z_lt_le_dec 9992 sizeofT) as [Hlt | Hle]; [lia|].
    assert ((sizeofT + 7) / 8 <= 9999 / 8) by (apply Z.div_le_mono; lia).
    change (9999 / 8) with 1249 in *. lia.
  - assert (10000 / 8 <= (sizeofT + 7) / 8) by (apply Z.div_le_mono; lia).
    change (10000 / 8) with 1250 in *. lia.
Qed.

Lemma Arena_alloc_aborts_exactly_witness :
  Arena_alloc 9993 (mkArena [0%nat] 8) = None <-> CHUNK_SIZE - 8 < 9993.
Proof.
  apply (Arena_alloc_aborts_exactly (mkArena [0%nat] 8) 9993).
  unfold sizeof_ok, PTRDIFF_MAX. lia.
Defined.

(** X2: [(sizeof(T) + 7) & (-8)] is the least multiple of 8 that is not
    below [sizeof(T)], and rounding a rounded size changes nothing. *)
Theorem currSize_of_least_multiple (sizeofT : Z) :
  sizeof_ok sizeofT ->
  (8 | currSize_of sizeofT)
  /\ sizeofT <= currSize_of sizeofT
  /\ (forall m, (8 | m) -> sizeofT <= m -> currSize_of sizeofT <= m)
  /\ currSize_of (currSize_of sizeofT) = currSize_of sizeofT.
Proof.
  intros Hs. pose proof (currSize_of_bounds _ Hs) as (Hb & H8 & Hm).
  rewrite (currSize_of_eq _ Hs) in *. destruct Hs as [H1 H2].
  unfold PTRDIFF_MAX in H2. split_and!.
  - exists ((sizeofT + 7) / 8). lia.
  - lia.
  - intros m [j ->] Hj.
    assert ((sizeofT + 7) / 8 <= (j * 8 + 7) / 8) by (apply Z.div_le_mono; lia).
    rewrite Z.div_add_l in * by lia. change (7 / 8) with 0 in *. lia.
  - apply currSize_of_multiple; unfold SIZE_MODULUS; lia.
Qed.

Lemma currSize_of_least_multiple_witness :
  (8 | currSize_of 13)
  /\ 13 <= currSize_of 13
  /\ (forall m, (8 | m) -> 13 <= m -> currSize_of 13 <= m)
  /\ currSize_of (currSize_of 13) = currSize_of 13.
Proof.
  apply (currSize_of_least_multiple 13). unfold sizeof_ok, PTRDIFF_MAX. lia.
Defined.

(** X3: the cursor a new arena starts with, which nothing initialises, is
    never looked at: whatever it holds, a run of allocations returns the
    same pointers and leaves the same arena. *)
Theorem Arena_allocs_ignore_initial_index
    (indeterminate1 indeterminate2 sizeofT : Z) (rest : list Z) :
  Arena_allocs (sizeofT :: rest) (Arena_new indeterminate1)
  = Arena_allocs (sizeofT :: rest) (Arena_new indeterminate2).
Proof.
  cbn [Arena_allocs].
  replace (Arena_alloc sizeofT (Arena_new indeterminate1))
    with (Arena_alloc sizeofT (Arena_new indeterminate2)); reflexivity.
Qed.

(** X4: in [alloc] no conversion between [int] and [size_t] changes a
    value and the mask rounds as division does: on every arena a program
    can hold, [alloc] is the same function read over the integers. *)
Theorem Arena_alloc_no_wraparound (a : Arena) (sizeofT : Z) :
  Arena_reachable a -> sizeof_ok sizeofT ->
  Arena_alloc sizeofT a = Arena_alloc_exact sizeofT a.
Proof.
  intros Hr Hs. pose proof (Arena_reachable_wf _ Hr) as [_ Hidx].
  pose proof (currSize_of_bounds _ Hs) as (Hb & H8 & Hm).
  unfold Arena_alloc, Arena_alloc_exact. cbv zeta.
  rewrite <- (currSize_of_eq _ Hs).
  destruct (currSize_of sizeofT <? CHUNK_SIZE) eqn:E; cbn [negb]; [|reflexivity].
  apply Z.ltb_lt in E.
  destruct Hidx as [Hnil | [Hi _]].
  - rewrite Hnil. cbn [length Nat.eqb orb]. unfold Arena_new_chunk.
    cbn [chunks index]. change (to_size_t 0) with 0. in_range. reflexivity.
  - rewrite (to_size_t_small (index a)) by range_side.
    rewrite (to_size_t_small (index a + _)) by range_side.
    destruct ((length (chunks a) =? 0)%nat
              || (CHUNK_SIZE <=? index a + currSize_of sizeofT)) eqn:Ecnd.
    + unfold Arena_new_chunk. cbn [chunks index].
      change (to_size_t 0) with 0. in_range. reflexivity.
    + apply orb_false_iff in Ecnd. destruct Ecnd as [_ El].
      apply Z.leb_gt in El. in_range. reflexivity.
Qed.

Lemma Arena_alloc_no_wraparound_witness :
  Arena_alloc 9000 (mkArena [0%nat] 9992)
  = Arena_alloc_exact 9000 (mkArena [0%nat] 9992).
Proof.
  apply (Arena_alloc_no_wraparound (mkArena [0%nat] 9992) 9000).
  - apply (reach_alloc (Arena_new 0) 9992 (0%nat, 0)).
    + apply reach_new.
    + unfold sizeof_ok, PTRDIFF_MAX. lia.
    + reflexivity.
  - unfold sizeof_ok, PTRDIFF_MAX. lia.
Defined.

(** ** Where successive allocations land *)

Lemma Arena_allocs_cons_inv s rest a ps a' :
  Arena_allocs (s :: rest) a = Some (ps, a') ->
  exists p a1 ps',
    Arena_alloc s a = Some (p, a1)
    /\ Arena_allocs rest a1 = Some (ps', a')
    /\ ps = p :: ps'.
Proof.
  cbn [Arena_allocs]. intros H.
  destruct (Arena_alloc s a) as [[p a1]|]; [|discriminate].
  destruct (Arena_allocs rest a1) as [[ps' a2]|] eqn:E; [|discriminate].
  injection H as <- <-. exists p, a1, ps'. auto.
Qed.

Lemma Arena_wf_length_last a :
  Arena_wf a -> chunks a <> [] ->
  length (chunks a) = S (List.last (chunks a) 0%nat).
Proof.
  intros [Hseq _] Hne. pose proof (nonempty_length _ Hne).
  rewrite Hseq at 2. rewrite last_seq_0 by lia. lia.
Qed.

Section AllocStepOrder.

Context (sizeofT : Z) (a a' : Arena) (p : pointer).
Context (Hwf : Arena_wf a) (Hs : sizeof_ok sizeofT).
Context (Halloc : Arena_alloc sizeofT a = Some (p, a')).

Lemma Arena_alloc_nonempty : chunks a' <> [].
Proof.
  destruct (Arena_alloc_step _ _ _ _ Hwf Hs Halloc) as (_ & Hcase).
  destruct Hcase as [(Ech & _) | (Ech & Hne & _)]; rewrite Ech; [|exact Hne].
  intros H. apply app_eq_nil in H. destruct H as [_ H]. discriminate.
Qed.

(** The step keeps the chunks it found and adds at most one. *)
Lemma Arena_alloc_prefix :
  chunks a `prefix_of` chunks a'
  /\ (length (chunks a') <= S (length (chunks a)))%nat.
Proof.
  destruct (Arena_alloc_step _ _ _ _ Hwf Hs Halloc) as (_ & Hcase).
  destruct Hcase as [(Ech & _) | (Ech & _)]; rewrite Ech.
  - split; [eexists; reflexivity|]. rewrite length_app. simpl. lia.
  - split; [reflexivity | lia].
Qed.

(** Whatever is past the new cursor comes after the pointer returned. *)
Lemma Arena_alloc_before_later q : past_cursor a' q -> pointer_lt p q.
Proof.
  intros Hq.
  pose proof (currSize_of_bounds _ Hs) as (Hb & H8 & Hm).
  destruct (Arena_alloc_step _ _ _ _ Hwf Hs Halloc) as (Hc & Hcase).
  unfold past_cursor, pointer_lt in *.
  destruct Hcase as [(Ech & -> & Ei & _) | (Ech & Hne & -> & Ei & Hlt)];
    cbn [fst snd]; rewrite Ech, Ei in Hq.
  - rewrite length_app in Hq. simpl length in Hq. lia.
  - pose proof (nonempty_length _ Hne). lia.
Qed.

(** The block returned is in one of the chunks of the arena. *)
Lemma Arena_alloc_in_chunks : In (fst p) (chunks a').
Proof.
  destruct (Arena_alloc_last_chunk _ _ _ _ Hwf Hs Halloc) as (Hlast & _).
  rewrite <- Hlast.
  destruct (exists_last Arena_alloc_nonempty) as (l & x & E).
  rewrite E, last_last. apply in_or_app. right. left. reflexivity.
Qed.

(** With no request above [m], a chunk is closed only once less than [m]
    bytes of it are left. *)
Lemma Arena_alloc_packed m :
  currSize_of sizeofT <= m ->
  packed m a' <= packed m a + currSize_of sizeofT.
Proof.
  intros Hmax.
  pose proof (currSize_of_bounds _ Hs) as (Hb & H8 & Hm).
  destruct (Arena_alloc_step _ _ _ _ Hwf Hs Halloc) as (Hc & Hcase).
  destruct Hwf as [_ Hidx]. unfold packed, CHUNK_SIZE in *.
  destruct Hcase as [(Ech & _ & Ei & Hwhy) | (Ech & Hne & _ & Ei & Hlt)];
    rewrite Ech, Ei.
  - rewrite length_app. simpl length.
    destruct (chunks a) as [|b l] eqn:Ec; simpl app; cbv iota.
    + simpl length. lia.
    + destruct Hwhy as [? | Hfull]; [discriminate|].
      rewrite Nat2Z.inj_add. simpl length. lia.
  - destruct (chunks a); [contradiction | lia].
Qed.

End AllocStepOrder.

(** X5: two allocations in a row are neighbours.  The second block starts
    where the first, rounded, ends, when it fits before the end of the
    chunk with a byte to spare; otherwise it is the start of the next
    chunk. *)
Theorem Arena_alloc_adjacent
    (a : Arena) (s1 s2 : Z) (p1 p2 : pointer) (a1 a2 : Arena) :
  Arena_reachable a -> sizeof_ok s1 -> sizeof_ok s2 ->
  Arena_alloc s1 a = Some (p1, a1) ->
  Arena_alloc s2 a1 = Some (p2, a2) ->
  (snd p1 + currSize_of s1 + currSize_of s2 < CHUNK_SIZE
   /\ p2 = (fst p1, snd p1 + currSize_of s1))
  \/ (CHUNK_SIZE <= snd p1 + currSize_of s1 + currSize_of s2
      /\ p2 = (S (fst p1), 0)).
Proof.
  intros Hr Hs1 Hs2 H1 H2.
  pose proof (Arena_reachable_wf _ Hr) as Hwf.
  pose proof (Arena_alloc_wf _ _ _ _ Hwf Hs1 H1) as Hwf1.
  pose proof (Arena_alloc_nonempty _ _ _ _ Hwf Hs1 H1) as Hne1.
  destruct (Arena_alloc_last_chunk _ _ _ _ Hwf Hs1 H1) as (Hlast & Hend & _).
  pose proof (Arena_wf_length_last _ Hwf1 Hne1) as Hlen.
  destruct (Arena_alloc_step _ _ _ _ Hwf1 Hs2 H2) as (_ & Hcase).
  rewrite Hlast in Hlen. rewrite Hend.
  destruct Hcase as [(_ & -> & _ & Hwhy) | (_ & _ & -> & _ & Hlt)].
  - right. destruct Hwhy as [? | Hfull]; [contradiction|].
    rewrite Hlen. auto.
  - left. rewrite Hlen. auto.
Qed.

Lemma Arena_alloc_adjacent_witness :
  (snd (0%nat, 0) + currSize_of 12 + currSize_of 5 < CHUNK_SIZE
   /\ (0%nat, 16) = (fst (0%nat, 0), snd (0%nat, 0) + currSize_of 12))
  \/ (CHUNK_SIZE <= snd (0%nat, 0) + currSize_of 12 + currSize_of 5
      /\ (0%nat, 16) = (S (fst (0%nat, 0)), 0)).
Proof.
  apply (Arena_alloc_adjacent (Arena_new 0) 12 5 (0%nat, 0) (0%nat, 16)
           (mkArena [0%nat] 16) (mkArena [0%nat] 24)).
  - apply reach_new.
  - unfold sizeof_ok, PTRDIFF_MAX. lia.
  - unfold sizeof_ok, PTRDIFF_MAX. lia.
  - reflexivity.
  - reflexivity.
Defined.

(** ** Runs: order, growth and packing *)

Lemma Arena_allocs_order sizes : forall a ps a',
  Arena_wf a -> Forall sizeof_ok sizes ->
  Arena_allocs sizes a = Some (ps, a') ->
  Arena_wf a'
  /\ length ps = length sizes
  /\ Forall (past_cursor a) ps
  /\ ForallOrdPairs pointer_lt ps
  /\ Forall (fun p => snd p mod 8 = 0 /\ In (fst p) (chunks a')) ps
  /\ chunks a `prefix_of` chunks a'
  /\ (length (chunks a') <= length (chunks a) + length sizes)%nat.
Proof.
  induction sizes as [|s rest IH]; intros a ps a' Hwf Hok Hrun.
  - injection Hrun as <- <-. simpl.
    split_and!; auto; try constructor; lia.
  - inversion Hok as [|? ? Hs Hrest]; subst.
    destruct (Arena_allocs_cons_inv _ _ _ _ _ Hrun) as (p & a1 & ps' & E & Erun & ->).
    pose proof (Arena_alloc_wf _ _ _ _ Hwf Hs E) as Hwf1.
    destruct (IH a1 ps' a' Hwf1 Hrest Erun)
      as (Hwf' & Hlen & Hpast & Hord & Hin & Hpre & Hgrow).
    destruct (Arena_alloc_returns_past _ _ _ _ Hwf Hs E) as (Hp & _ & _).
    destruct (Arena_alloc_last_chunk _ _ _ _ Hwf Hs E) as (_ & _ & H8).
    destruct (Arena_alloc_prefix _ _ _ _ Hwf Hs E) as (Hpre1 & Hgrow1).
    pose proof (Arena_alloc_in_chunks _ _ _ _ Hwf Hs E) as Hin1.
    split_and!.
    + exact Hwf'.
    + simpl. lia.
    + constructor; [exact Hp|].
      eapply Forall_impl; [exact Hpast|]. intros q Hq.
      exact (proj1 (Arena_alloc_later_past _ _ _ _ Hwf Hs E q 0 Hq)).
    + constructor; [|exact Hord].
      eapply Forall_impl; [exact Hpast|]. intros q Hq.
      exact (Arena_alloc_before_later _ _ _ _ Hwf Hs E q Hq).
    + constructor; [|exact Hin]. split; [exact H8|].
      destruct Hpre as [k ->]. apply in_or_app. left. exact Hin1.
    + etransitivity; eassumption.
    + simpl length. lia.
Qed.

Lemma Arena_allocs_packed m sizes : forall a ps a',
  Arena_wf a ->
  Forall (fun s => sizeof_ok s /\ currSize_of s <= m) sizes ->
  Arena_allocs sizes a = Some (ps, a') ->
  packed m a' <= packed m a + Zsum (map currSize_of sizes).
Proof.
  induction sizes as [|s rest IH]; intros a ps a' Hwf Hok Hrun.
  - injection Hrun as <- <-. simpl. lia.
  - inversion Hok as [|? ? [Hs Hm] Hrest]; subst.
    destruct (Arena_allocs_cons_inv _ _ _ _ _ Hrun) as (p & a1 & ps' & E & Erun & ->).
    pose proof (Arena_alloc_wf _ _ _ _ Hwf Hs E) as Hwf1.
    pose proof (IH a1 ps' a' Hwf1 Hrest Erun).
    pose proof (Arena_alloc_packed _ _ _ _ Hwf Hs E m Hm).
    simpl. lia.
Qed.

(** X6: a run of allocations returns its pointers in strictly increasing
    order, by chunk and then by offset; every offset is a multiple of 8
    and every block lies in a chunk the arena still holds at the end. *)
Theorem Arena_allocs_in_address_order
    (a : Arena) (sizes : list Z) (ps : list pointer) (a' : Arena) :
  Arena_reachable a -> Forall sizeof_ok sizes ->
  Arena_allocs sizes a = Some (ps, a') ->
  ForallOrdPairs pointer_lt ps
  /\ Forall (fun p => snd p mod 8 = 0 /\ In (fst p) (chunks a')) ps.
Proof.
  intros Hr Hok Hrun. pose proof (Arena_reachable_wf _ Hr) as Hwf.
  destruct (Arena_allocs_order _ _ _ _ Hwf Hok Hrun)
    as (_ & _ & _ & Hord & Hin & _).
  auto.
Qed.

Lemma Arena_allocs_in_address_order_witness :
  ForallOrdPairs pointer_lt [(0%nat, 0); (0%nat, 9984); (1%nat, 0)]
  /\ Forall (fun p => snd p mod 8 = 0
                      /\ In (fst p) (chunks (mkArena [0%nat; 1%nat] 16)))
            [(0%nat, 0); (0%nat, 9984); (1%nat, 0)].
Proof.
  apply (Arena_allocs_in_address_order (Arena_new 0) [9984; 8; 16]).
  - apply reach_new.
  - repeat constructor; unfold PTRDIFF_MAX; lia.
  - reflexivity.
Defined.

(** X7: a run of [k] allocations keeps every chunk the arena had, in
    place, and opens at most [k] more. *)
Theorem Arena_allocs_chunk_growth
    (a : Arena) (sizes : list Z) (ps : list pointer) (a' : Arena) :
  Arena_reachable a -> Forall sizeof_ok sizes ->
  Arena_allocs sizes a = Some (ps, a') ->
  chunks a `prefix_of` chunks a'
  /\ (length (chunks a') <= length (chunks a) + length sizes)%nat
  /\ length ps = length sizes.
Proof.
  intros Hr Hok Hrun. pose proof (Arena_reachable_wf _ Hr) as Hwf.
  destruct (Arena_allocs_order _ _ _ _ Hwf Hok Hrun)
    as (_ & Hlen & _ & _ & _ & Hpre & Hgrow).
  auto.
Qed.

Lemma Arena_allocs_chunk_growth_witness :
  chunks (Arena_new 0) `prefix_of` chunks (mkArena [0%nat; 1%nat] 16)
  /\ (length (chunks (mkArena [0%nat; 1%nat] 16))
      <= length (chunks (Arena_new 0)) + length [9984%Z; 8%Z; 16%Z])%nat
  /\ length [(0%nat, 0); (0%nat, 9984); (1%nat, 0)] = length [9984; 8; 16].
Proof.
  apply (Arena_allocs_chunk_growth (Arena_new 0) [9984; 8; 16]
           [(0%nat, 0); (0%nat, 9984); (1%nat, 0)]).
  - apply reach_new.
  - repeat constructor; unfold PTRDIFF_MAX; lia.
  - reflexivity.
Defined.

(** X8: the arena wastes less than one largest request per chunk.  When no
    rounded size exceeds [m], every chunk but the last is filled to at
    least [CHUNK_SIZE - m] bytes, so the sizes requested from a new arena
    add up to at least [(chunks - 1) * (CHUNK_SIZE - m)] plus the cursor. *)
Theorem Arena_allocs_waste_bound
    (indeterminate m : Z) (sizes : list Z) (ps : list pointer) (a' : Arena) :
  Forall (fun s => sizeof_ok s /\ currSize_of s <= m) sizes ->
  sizes <> [] ->
  Arena_allocs sizes (Arena_new indeterminate) = Some (ps, a') ->
  (Z.of_nat (length (chunks a')) - 1) * (CHUNK_SIZE - m) + index a'
  <= Zsum (map currSize_of sizes).
Proof.
  intros Hok Hne Hrun.
  pose proof (Arena_new_wf indeterminate) as Hwf.
  pose proof (Arena_allocs_packed m _ _ _ _ Hwf Hok Hrun) as Hp.
  assert (Hok' : Forall sizeof_ok sizes)
    by (eapply Forall_impl; [exact Hok | intros s [H _]; exact H]).
  destruct (Arena_allocs_order _ _ _ _ Hwf Hok' Hrun)
    as (_ & Hlen & _ & _ & Hin & _).
  unfold packed in Hp. cbn [Arena_new chunks] in Hp.
  destruct (chunks a') as [|b l] eqn:Ea'; [|exact Hp].
  destruct sizes as [|s rest]; [contradiction|].
  destruct ps as [|p ps]; [discriminate|].
  inversion Hin as [|? ? [_ []] _].
Qed.

Lemma Arena_allocs_waste_bound_witness :
  (Z.of_nat (length (chunks (mkArena [0%nat; 1%nat] 6104))) - 1)
  * (CHUNK_SIZE - 6000) + index (mkArena [0%nat; 1%nat] 6104)
  <= Zsum (map currSize_of [6000; 6000; 100]).
Proof.
  apply (Arena_allocs_waste_bound 0 6000 [6000; 6000; 100]
           [(0%nat, 0); (1%nat, 0); (1%nat, 6000)]).
  - repeat constructor; try (unfold PTRDIFF_MAX; lia);
      apply Z.leb_le; reflexivity.
  - discriminate.
  - reflexivity.
Defined.

(** ** Teardown *)

Lemma delete_chunks_all cs : forall h : heap,
  NoDup cs -> (forall b, In b cs -> b ∉ h) ->
  delete_chunks cs (h ∪ list_to_set cs) = Some h.
Proof.
  induction cs as [|c rest IH]; intros h Hnd Hfresh.
  - simpl. f_equal. apply union_empty_r_L.
  - apply NoDup_cons in Hnd. destruct Hnd as [Hc Hnd].
    assert (Hch : c ∉ h) by (apply Hfresh; left; reflexivity).
    cbn [delete_chunks list_to_set]. unfold delete_array.
    destruct (decide (c ∈ h ∪ ({[c]} ∪ list_to_set rest))) as [_ | Hn];
      [|exfalso; apply Hn, elem_of_union_r, elem_of_union_l, elem_of_singleton;
        reflexivity].
    replace ((h ∪ ({[c]} ∪ list_to_set rest)) ∖ {[c]})
      with (h ∪ (list_to_set rest : heap)).
    + apply IH; [exact Hnd|]. intros b Hb. apply Hfresh. right. exact Hb.
    + apply set_eq. intros x. rewrite elem_of_difference, !elem_of_union,
        elem_of_singleton, elem_of_list_to_set.
      split; [|tauto]. intros [Hx | Hx]; (split; [tauto|]); intros ->; auto.
Qed.

Lemma delete_chunks_gone cs : forall h h' : heap,
  delete_chunks cs h = Some h' ->
  h' ⊆ h /\ (forall c, In c cs -> c ∉ h').
Proof.
  induction cs as [|c rest IH]; intros h h' H.
  - injection H as <-. split; [reflexivity | intros c []].
  - cbn [delete_chunks] in H. unfold delete_array in H.
    destruct (decide (c ∈ h)) as [Hc | Hc]; [|discriminate].
    destruct (IH _ _ H) as [Hsub Hgone]. split.
    + intros x Hx. apply Hsub, elem_of_difference in Hx. tauto.
    + intros x [<- | Hx]; [|auto]. intros Hin.
      apply Hsub, elem_of_difference in Hin. destruct Hin as [_ Hn].
      apply Hn, elem_of_singleton. reflexivity.
Qed.

(** X9: the destructor gives back every chunk of the arena, each once: no
    chunk is deleted twice and none is left alive, and the rest of the
    heap is as it was. *)
Theorem Arena_destroy_releases_chunks (a : Arena) (h : heap) :
  Arena_reachable a ->
  (forall b, In b (chunks a) -> b ∉ h) ->
  Arena_destroy a (h ∪ list_to_set (chunks a)) = Some h.
Proof.
  intros Hr Hfresh. destruct (Arena_reachable_wf _ Hr) as [Hseq _].
  unfold Arena_destroy. apply delete_chunks_all; [|exact Hfresh].
  rewrite Hseq. apply NoDup_seq.
Qed.

Lemma Arena_destroy_releases_chunks_witness :
  Arena_destroy (mkArena [0%nat; 1%nat] 8)
    (∅ ∪ list_to_set (chunks (mkArena [0%nat; 1%nat] 8)))
  = Some ∅.
Proof.
  apply (Arena_destroy_releases_chunks (mkArena [0%nat; 1%nat] 8) ∅).
  - apply (reach_alloc (mkArena [0%nat] 9992) 8 (1%nat, 0)).
    + apply (reach_alloc (Arena_new 0) 9992 (0%nat, 0)).
      * apply reach_new.
      * unfold sizeof_ok, PTRDIFF_MAX. lia.
      * reflexivity.
    + unfold sizeof_ok, PTRDIFF_MAX. lia.
    + reflexivity.
  - intros b _. apply not_elem_of_empty.
Defined.

(** X10: [Arena] declares no copy constructor, so a copy holds the chunks
    of the original.  Once one of the two is torn down, tearing down the
    other deletes blocks that are no longer alive: it fails as soon as the
    arena holds a chunk. *)
Theorem Arena_destroy_twice_fails (a : Arena) (h h' : heap) :
  chunks a <> [] ->
  Arena_destroy a h = Some h' ->
  Arena_destroy a h' = None.
Proof.
  unfold Arena_destroy. intros Hne H.
  destruct (delete_chunks_gone _ _ _ H) as [_ Hgone].
  destruct (chunks a) as [|c rest]; [contradiction|].
  cbn [delete_chunks]. unfold delete_array.
  destruct (decide (c ∈ h')) as [Hc | _]; [|reflexivity].
  exfalso. apply (Hgone c); [left; reflexivity | exact Hc].
Qed.

Lemma Arena_destroy_twice_fails_witness :
  Arena_destroy (mkArena [0%nat] 16) ∅ = None.
Proof.
  apply (Arena_destroy_twice_fails (mkArena [0%nat] 16) {[0%nat]} ∅).
  - discriminate.
  - vm_compute. reflexivity.
Defined.
